(** * hasher-matcher-actioner: action evaluator and match query API

    A shallow embedding of
      - hmalib/lambdas/actions/action_evaluator.py
      - hmalib/lambdas/api/matches.py
    followed by the properties established about them. *)

From stdpp Require Import base option list strings.

Local Open Scope string_scope.
Local Open Scope list_scope.

(** ** Value types of [hmalib.common.actioner_models] and [hmalib.models] *)

Module ActionerModels.

(** Modelled from the spec: the classes of [hmalib.common.actioner_models]
    and [hmalib.models.MatchMessage] are imported by the evaluator but not
    defined in it.  A [Label] is a (key, value) pair with value equality;
    [ActionLabel] and [ThreatExchangeReactionLabel] are built from their
    value alone, as in [ActionLabel("EnqueueForReview")]. *)
Record Label := mkLabel { key : string; value : string }.

Record ActionLabel := mkActionLabel { action_value : string }.

Record ReactionLabel := ThreatExchangeReactionLabel { reaction_value : string }.

(** [MatchMessage("key", "hash", [])]: content key, content hash, labels. *)
Record MatchMessage := mkMatchMessage {
  content_key : string;
  content_hash : string;
  match_labels : list Label
}.

(** [ActionRule(action_label, must_have_labels, must_not_have_labels)]. *)
Record ActionRule := mkActionRule {
  action_label : ActionLabel;
  must_have_labels : list Label;
  must_not_have_labels : list Label
}.

(** [Action(action_label, priority, superseded_by_action_label)]. *)
Record Action := mkAction {
  act_label : ActionLabel;
  priority : Z;
  superseded_by_action_label : list ActionLabel
}.

(** [ActionMessage.from_match_message_and_label]: the match context plus
    the triggering action label. *)
Record ActionMessage := mkActionMessage {
  am_match : MatchMessage;
  am_label : ActionLabel
}.

Record ReactionMessage := mkReactionMessage {
  rm_match : MatchMessage;
  rm_label : ReactionLabel
}.

#[global] Instance Label_eq_dec : EqDecision Label.
Proof. solve_decision. Defined.

#[global] Instance ActionLabel_eq_dec : EqDecision ActionLabel.
Proof. solve_decision. Defined.

#[global] Instance ReactionLabel_eq_dec : EqDecision ReactionLabel.
Proof. solve_decision. Defined.

#[global] Instance MatchMessage_eq_dec : EqDecision MatchMessage.
Proof. solve_decision. Defined.

End ActionerModels.

(** ** hmalib/lambdas/actions/action_evaluator.py *)

Module ActionEvaluator.
Import ActionerModels.

(** *** The rule evaluator *)

Definition get_action_rules : list ActionRule :=
  [ mkActionRule (mkActionLabel "EnqueueForReview")
                 [mkLabel "Collaboration" "12345"]
                 [] ].

Definition action_rule_applies_to_match_message
    (action_rule : ActionRule) (match_message : MatchMessage) : bool :=
  true.

Definition get_actions : list Action :=
  [ mkAction (mkActionLabel "ENQUEUE_FOR_REVIEW") 1
             [mkActionLabel "A_MORE_IMPORTANT_ACTION"] ].

Definition remove_superseded_actions
    (action_labels : list ActionLabel) : list ActionLabel :=
  action_labels.

(** One iteration of the [for action_rule in action_rules] loop: the
    rule's label is appended when the rule applies and the label is not
    yet in the accumulator. *)
Definition evaluate_rule (match_message : MatchMessage)
    (action_labels : list ActionLabel) (action_rule : ActionRule)
    : list ActionLabel :=
  if action_rule_applies_to_match_message action_rule match_message
     && negb (bool_decide (action_label action_rule ∈ action_labels))
  then action_labels ++ [action_label action_rule]
  else action_labels.

(** The loop of [get_action_labels] over a given rule list, starting from
    the empty accumulator: the labels before supersession removal. *)
Definition evaluate_rules (action_rules : list ActionRule)
    (match_message : MatchMessage) : list ActionLabel :=
  fold_left (evaluate_rule match_message) action_rules [].

Definition get_action_labels (match_message : MatchMessage)
    : list ActionLabel :=
  remove_superseded_actions (evaluate_rules get_action_rules match_message).

Definition threat_exchange_reacting_is_enabled
    (match_message : MatchMessage) : bool :=
  true.

Definition get_threat_exchange_reaction_labels
    (match_message : MatchMessage) (action_labels : list ActionLabel)
    : list ReactionLabel :=
  [ThreatExchangeReactionLabel "SAW_THIS_TOO"].

(** *** The lambda's world: environment, inbound records, SQS *)

Inductive MessageBody :=
| ActionBody (m : ActionMessage)
| ReactionBody (m : ReactionMessage).

(** One [sqs_client.send_message(QueueUrl=..., MessageBody=...)] call that
    went through.  Serialisation ([to_aws_message], [json.dumps]) is left
    out: the log keeps the message that was serialised. *)
Record Sent := mkSent { QueueUrl : string; Body : MessageBody }.

Record SqsRecord := mkSqsRecord { body : string }.

Record Event := mkEvent { Records : list SqsRecord }.

(** What the handler does not define itself:
    - [environ]: [os.environ];
    - [decode]: [json.loads(body)["Message"]] followed by
      [MatchMessage.from_aws_message], [None] when any of them raises;
    - [sqs_accepts]: whether a [send_message] call succeeds. *)
Record Runtime := mkRuntime {
  environ : string -> option string;
  decode : string -> option MatchMessage;
  sqs_accepts : string -> MessageBody -> bool
}.

(** The two functions documented as configuration lookups, which the
    handler calls by name. *)
Record Policy := mkPolicy {
  reacting_is_enabled : MatchMessage -> bool;
  reaction_labels : MatchMessage -> list ActionLabel -> list ReactionLabel
}.

Definition source_policy : Policy :=
  mkPolicy threat_exchange_reacting_is_enabled
           get_threat_exchange_reaction_labels.

Inductive Exception :=
| KeyError (name : string)
| MalformedInput (raw : string)
| PublishFailure (queue : string) (msg : MessageBody).

Inductive Result (A : Type) :=
| Returned (a : A)
| Raised (e : Exception).
Arguments Returned {A} a.
Arguments Raised {A} e.

(** A computation of the lambda: it extends the log of sent messages and
    either returns or raises.  Messages sent before an exception stay
    sent. *)
Definition Lambda (A : Type) : Type := list Sent -> Result A * list Sent.

Definition ret {A} (a : A) : Lambda A := fun log => (Returned a, log).

Definition raise {A} (e : Exception) : Lambda A := fun log => (Raised e, log).

Definition bind {A B} (c : Lambda A) (k : A -> Lambda B) : Lambda B :=
  fun log =>
    match c log with
    | (Returned a, log') => k a log'
    | (Raised e, log') => (Raised e, log')
    end.

Declare Scope lambda_scope.
Delimit Scope lambda_scope with lam.
Notation "x <- c ;; k" := (bind c (fun x => k))
  (at level 100, c at next level, right associativity) : lambda_scope.
Notation "c ;;; k" := (bind c (fun _ => k))
  (at level 100, right associativity) : lambda_scope.

(** A Python [for x in xs: body] whose body may raise. *)
Fixpoint for_each {A} (xs : list A) (loop_body : A -> Lambda unit)
    : Lambda unit :=
  match xs with
  | [] => ret tt
  | x :: rest => (loop_body x ;;; for_each rest loop_body)%lam
  end.

Definition send_message (rt : Runtime) (queue_url : string)
    (message_body : MessageBody) : Lambda unit :=
  fun log =>
    if sqs_accepts rt queue_url message_body
    then (Returned tt, log ++ [mkSent queue_url message_body])
    else (Raised (PublishFailure queue_url message_body), log).

Record ActionEvaluatorConfig := mkConfig {
  actions_queue_url : string;
  reactions_queue_url : string
}.

Definition getenv (rt : Runtime) (name : string) : Lambda string :=
  match environ rt name with
  | Some v => ret v
  | None => raise (KeyError name)
  end.

Definition ActionEvaluatorConfig_get (rt : Runtime)
    : Lambda ActionEvaluatorConfig :=
  (a <- getenv rt "ACTIONS_QUEUE_URL" ;;
   r <- getenv rt "REACTIONS_QUEUE_URL" ;;
   ret (mkConfig a r))%lam.

Definition parse_record (rt : Runtime) (sqs_record : SqsRecord)
    : Lambda MatchMessage :=
  match decode rt (body sqs_record) with
  | Some match_message => ret match_message
  | None => raise (MalformedInput (body sqs_record))
  end.

(** The body of [for sqs_record in event["Records"]]. *)
Definition process_record_with (rt : Runtime) (p : Policy)
    (config : ActionEvaluatorConfig) (sqs_record : SqsRecord)
    : Lambda unit :=
  (match_message <- parse_record rt sqs_record ;;
   let action_labels := get_action_labels match_message in
   for_each action_labels (fun action_label =>
     send_message rt (actions_queue_url config)
       (ActionBody (mkActionMessage match_message action_label))) ;;;
   if reacting_is_enabled p match_message then
     let threat_exchange_reaction_labels :=
       reaction_labels p match_message action_labels in
     match threat_exchange_reaction_labels with
     | [] => ret tt
     | _ :: _ =>
       for_each threat_exchange_reaction_labels (fun reaction_label =>
         send_message rt (reactions_queue_url config)
           (ReactionBody (mkReactionMessage match_message reaction_label)))
     end
   else ret tt)%lam.

(** The returned dictionary [{"evaluation_completed": "true"}]. *)
Definition Summary : Type := list (string * string).

Definition evaluation_completed : Summary :=
  [("evaluation_completed", "true")].

Definition lambda_handler_with (rt : Runtime) (p : Policy) (event : Event)
    : Lambda Summary :=
  (config <- ActionEvaluatorConfig_get rt ;;
   for_each (Records event) (process_record_with rt p config) ;;;
   ret evaluation_completed)%lam.

Definition process_record (rt : Runtime) :=
  process_record_with rt source_policy.

Definition lambda_handler (rt : Runtime) (event : Event) : Lambda Summary :=
  lambda_handler_with rt source_policy event.

End ActionEvaluator.

(** ** hmalib/lambdas/api/matches.py *)

Module Matches.

(** [signal_id: t.Union[str, int]] *)
Inductive SignalId :=
| SignalStr (s : string)
| SignalInt (n : Z).

#[global] Instance SignalId_eq_dec : EqDecision SignalId.
Proof. solve_decision. Defined.

(** Python truthiness of the values tested with [not]. *)
Definition str_truthy (s : string) : bool :=
  match s with
  | EmptyString => false
  | String _ _ => true
  end.

Definition signal_id_truthy (signal_id : SignalId) : bool :=
  match signal_id with
  | SignalStr s => str_truthy s
  | SignalInt n => negb (n =? 0)%Z
  end.

(** [s[n:]] on a string. *)
Fixpoint str_from (n : nat) (s : string) : string :=
  match n, s with
  | O, _ => s
  | S n', String _ rest => str_from n' rest
  | S _, EmptyString => EmptyString
  end.

Record MatchDetailMetadata := mkMatchDetailMetadata {
  dataset : string;
  tags : list string;
  opinion : string
}.

Record MatchDetail := mkMatchDetail {
  content_id : string;
  content_hash : string;
  signal_id : SignalId;
  signal_hash : string;
  signal_source : string;
  signal_type : string;
  updated_at : string;
  metadata : list MatchDetailMetadata
}.

Module OpinionString.
Inductive t := TP | FP | DISPUTED | UNKNOWN.

Definition value (o : t) : string :=
  match o with
  | TP => "True Positive"
  | FP => "False Positive"
  | DISPUTED => "Unknown (Disputed)"
  | UNKNOWN => "Unknown"
  end.
End OpinionString.

(** The three class constants of [threatexchange.descriptor.ThreatDescriptor]
    that this file reads; their values are not defined here. *)
Module ThreatDescriptor.
Record t := mk {
  TRUE_POSITIVE : string;
  FALSE_POSITIVE : string;
  DISPUTED : string
}.
End ThreatDescriptor.

(** The rows of [hmalib.models], with the fields this file reads. *)
Record PDQMatchRecord (datetime : Type) := mkPDQMatchRecord {
  rec_content_id : string;
  rec_content_hash : string;
  rec_signal_id : SignalId;
  rec_signal_hash : string;
  rec_signal_source : string;
  rec_updated_at : datetime
}.
Arguments mkPDQMatchRecord {datetime}.
Arguments rec_content_id {datetime}.
Arguments rec_content_hash {datetime}.
Arguments rec_signal_id {datetime}.
Arguments rec_signal_hash {datetime}.
Arguments rec_signal_source {datetime}.
Arguments rec_updated_at {datetime}.

Record PDQSignalMetadata := mkPDQSignalMetadata {
  ds_id : string;
  md_tags : list string
}.

(** What [matches.py] imports: the table type, the two table queries of
    [hmalib.models], [datetime.isoformat], the [SIGNAL_TYPE] class
    constant and the descriptor tags. *)
Record Models := mkModels {
  Table : Type;
  datetime : Type;
  get_from_content_id : Table -> string -> list (PDQMatchRecord datetime);
  get_from_signal : Table -> SignalId -> string -> list PDQSignalMetadata;
  isoformat : datetime -> string;
  SIGNAL_TYPE : string;
  descriptor : ThreatDescriptor.t
}.

(** A query issued against the table store. *)
Inductive Query :=
| ByContentId (content_key : string)
| BySignal (signal_id : SignalId) (signal_source : string).

(** A result together with the table queries issued to compute it, in
    order. *)
Definition Traced (A : Type) : Type := A * list Query.

Definition pure {A} (a : A) : Traced A := (a, []).

Definition query {A} (q : Query) (rows : A) : Traced A := (rows, [q]).

Definition and_then {A B} (c : Traced A) (k : A -> Traced B) : Traced B :=
  let '(a, t1) := c in
  let '(b, t2) := k a in
  (b, t1 ++ t2).

(** A list comprehension whose element expression queries the table. *)
Fixpoint comprehension {A B} (f : A -> Traced B) (xs : list A)
    : Traced (list B) :=
  match xs with
  | [] => pure []
  | x :: rest =>
    and_then (f x) (fun y =>
    and_then (comprehension f rest) (fun ys => pure (y :: ys)))
  end.

Section WithModels.
Variable M : Models.

Definition opinion_tags : list string :=
  [ ThreatDescriptor.TRUE_POSITIVE (descriptor M);
    ThreatDescriptor.FALSE_POSITIVE (descriptor M);
    ThreatDescriptor.DISPUTED (descriptor M) ].

Definition get_opinion_from_tags (tags : list string) : OpinionString.t :=
  if bool_decide (ThreatDescriptor.TRUE_POSITIVE (descriptor M) ∈ tags)
  then OpinionString.TP
  else if bool_decide (ThreatDescriptor.FALSE_POSITIVE (descriptor M) ∈ tags)
  then OpinionString.FP
  else if bool_decide (ThreatDescriptor.DISPUTED (descriptor M) ∈ tags)
  then OpinionString.DISPUTED
  else OpinionString.UNKNOWN.

(** The element expression of the comprehension in
    [get_signal_details]. *)
Definition signal_metadata_detail (metadata : PDQSignalMetadata)
    : MatchDetailMetadata :=
  mkMatchDetailMetadata
    (ds_id metadata)
    (filter (fun tag => tag ∉ opinion_tags) (md_tags metadata))
    (OpinionString.value (get_opinion_from_tags (md_tags metadata))).

Definition get_signal_details (table : Table M) (signal_id : SignalId)
    (signal_source : string) : Traced (list MatchDetailMetadata) :=
  if negb (signal_id_truthy signal_id) || negb (str_truthy signal_source)
  then pure []
  else
    and_then
      (query (BySignal signal_id signal_source)
             (get_from_signal M table signal_id signal_source))
      (fun rows => pure (map signal_metadata_detail rows)).

Definition get_match_details (table : Table M) (content_id : string)
    (image_folder_key : string) : Traced (list MatchDetail) :=
  if negb (str_truthy content_id)
  then pure []
  else
    and_then
      (query (ByContentId (image_folder_key +:+ content_id))
             (get_from_content_id M table (image_folder_key +:+ content_id)))
      (fun records =>
         comprehension
           (fun record =>
              and_then
                (get_signal_details table (rec_signal_id record)
                                    (rec_signal_source record))
                (fun details =>
                   pure (mkMatchDetail
                           (str_from (String.length image_folder_key)
                                     (rec_content_id record))
                           (rec_content_hash record)
                           (rec_signal_id record)
                           (rec_signal_hash record)
                           (rec_signal_source record)
                           (SIGNAL_TYPE M)
                           (isoformat M (rec_updated_at record))
                           details)))
           records).
End WithModels.

End Matches.

(** ** Notions the properties are stated with *)

Module Reference.
Import ActionerModels ActionEvaluator.

(** First-seen order of a list: every element is kept at its first
    occurrence and its later copies are dropped. *)
Fixpoint first_seen {A} `{EqDecision A} (l : list A) : list A :=
  match l with
  | [] => []
  | x :: rest => x :: filter (fun y => y ≠ x) (first_seen rest)
  end.

(** The documented rule predicate, in the words of the docstring of
    [action_rule_applies_to_match_message]: all "must have" labels are
    present in the match message and none of the "must not have" labels
    is. *)
Definition rule_applies_as_documented (action_rule : ActionRule)
    (match_message : MatchMessage) : Prop :=
  must_have_labels action_rule ⊆ match_labels match_message
  ∧ ∀ l, l ∈ must_not_have_labels action_rule →
         l ∉ match_labels match_message.

(** Supersession as the Action attribute is named: [winner] is listed in
    the [superseded_by_action_label] of the Action of [loser]. *)
Definition superseded_by (actions : list Action)
    (winner loser : ActionLabel) : Prop :=
  ∃ a, a ∈ actions ∧ act_label a = loser
       ∧ winner ∈ superseded_by_action_label a.

(** The labels of [input] that are missing from [output]. *)
Definition removed_labels (input output : list ActionLabel)
    : list ActionLabel :=
  filter (fun l => l ∉ output) input.

Definition is_reaction (s : Sent) : bool :=
  match Body s with
  | ReactionBody _ => true
  | ActionBody _ => false
  end.

(** The action labels of the [ActionMessage]s in a log, in order. *)
Definition published_action_labels (log : list Sent) : list ActionLabel :=
  omap (fun s => match Body s with
                 | ActionBody m => Some (am_label m)
                 | ReactionBody _ => None
                 end) log.

Definition returned {A} (r : Result A) : bool :=
  match r with
  | Returned _ => true
  | Raised _ => false
  end.

(** Whether a record, run on its own, goes through the loop body without
    an exception. *)
Definition record_succeeds (rt : Runtime) (config : ActionEvaluatorConfig)
    (sqs_record : SqsRecord) : bool :=
  returned (fst (process_record rt config sqs_record [])).

(** A computation is history independent when its result and the
    messages it adds do not depend on the log it starts from. *)
Definition history_independent {A} (c : Lambda A) : Prop :=
  ∀ log, c log = (fst (c []), log ++ snd (c [])).

(** Failure isolation in the words of the specification: every record of
    the batch that parses is still processed, that is, whatever it
    publishes when run on its own is published by the batch. *)
Definition siblings_processed (rt : Runtime)
    (config : ActionEvaluatorConfig) (event : Event) : Prop :=
  ∀ r, r ∈ Records event → is_Some (decode rt (body r)) →
    ∀ s, s ∈ snd (process_record rt config r []) →
         s ∈ snd (lambda_handler rt event []).

(** The three batch outcomes of the specification's error-handling
    design, from the per-record outcomes. *)
Inductive BatchOutcome := FullySucceeded | PartiallySucceeded | FullyFailed.

Definition batch_outcome (outcomes : list bool) : BatchOutcome :=
  if forallb id outcomes then FullySucceeded
  else if existsb id outcomes then PartiallySucceeded
  else FullyFailed.

End Reference.

(** ** Concrete inputs *)

Module Scenarios.
Import ActionerModels ActionEvaluator.

(** [MatchMessage("key", "hash", [])], as built under [__main__]. *)
Definition main_match_message : MatchMessage :=
  mkMatchMessage "key" "hash" [].

Definition collaboration : Label := mkLabel "Collaboration" "12345".

Definition enqueue_for_review : ActionLabel :=
  mkActionLabel "EnqueueForReview".

(** The rule returned by [get_action_rules]. *)
Definition source_rule : ActionRule :=
  mkActionRule enqueue_for_review [collaboration] [].

(** The same label, excluded for the collaboration. *)
Definition excluding_rule : ActionRule :=
  mkActionRule enqueue_for_review [] [collaboration].

Definition collaboration_match : MatchMessage :=
  mkMatchMessage "key1" "h1" [collaboration].

(** Three rules, the first and the last with the same action label. *)
Definition rules_with_shared_label : list ActionRule :=
  [ mkActionRule (mkActionLabel "A") [] [];
    mkActionRule (mkActionLabel "B") [] [];
    mkActionRule (mkActionLabel "A") [collaboration] [] ].

Definition label_A : ActionLabel := mkActionLabel "A".
Definition label_B : ActionLabel := mkActionLabel "B".
Definition label_C : ActionLabel := mkActionLabel "C".

(** The two labels of the Action returned by [get_actions]. *)
Definition enqueue_for_review_action : ActionLabel :=
  mkActionLabel "ENQUEUE_FOR_REVIEW".

Definition more_important_action : ActionLabel :=
  mkActionLabel "A_MORE_IMPORTANT_ACTION".

(** A runtime with both queue locators set, a transport that accepts
    every message, and one record body that decodes. *)
Definition queue_environ (name : string) : option string :=
  if decide (name = "ACTIONS_QUEUE_URL") then Some "actions-queue"
  else if decide (name = "REACTIONS_QUEUE_URL") then Some "reactions-queue"
  else None.

Definition decode_key1 (raw : string) : option MatchMessage :=
  if decide (raw = "key1 h1 Collaboration:12345")
  then Some collaboration_match
  else None.

Definition runtime : Runtime :=
  mkRuntime queue_environ decode_key1 (fun _ _ => true).

Definition queues : ActionEvaluatorConfig :=
  mkConfig "actions-queue" "reactions-queue".

Definition good_record : SqsRecord :=
  mkSqsRecord "key1 h1 Collaboration:12345".

Definition bad_record : SqsRecord := mkSqsRecord "not a match message".

(** A reaction gate that is switched off, in front of the resolver of
    the source. *)
Definition gate_off : Policy :=
  mkPolicy (fun _ => false) get_threat_exchange_reaction_labels.

End Scenarios.

Module MatchScenarios.
Import Matches.

Definition descriptor_tags : ThreatDescriptor.t :=
  ThreatDescriptor.mk "true_positive" "false_positive" "disputed".

Definition cat_record : PDQMatchRecord string :=
  mkPDQMatchRecord "images/cat.jpg" "cafe" (SignalInt 42) "beef" "te"
                   "2021-03-01T00:00:00".

Definition cat_metadata : PDQSignalMetadata :=
  mkPDQSignalMetadata "ds1" ["false_positive"; "nsfw"; "disputed"].

(** A table store with one match of "images/cat.jpg" against signal 42 of
    source "te", which one dataset knows about. *)
Definition one_match : Models :=
  mkModels unit string
    (fun _ content_key =>
       if decide (content_key = "images/cat.jpg") then [cat_record] else [])
    (fun _ signal_id signal_source =>
       if decide (signal_id = SignalInt 42 ∧ signal_source = "te")
       then [cat_metadata] else [])
    id
    "pdq"
    descriptor_tags.

End MatchScenarios.

(** ** hmalib/lambdas/api/matches.py: JSON views and endpoints *)

Module MatchesApi.
Import Matches.

(** The JSON-ready values built by [asdict] and [to_json].  A Python dict
    is kept as the list of its items in insertion order. *)
#[local] Unset Elimination Schemes.
Inductive Json :=
| JStr (s : string)
| JInt (n : Z)
| JList (items : list Json)
| JDict (entries : list (string * Json)).
#[local] Set Elimination Schemes.

Definition json_of_signal_id (signal_id : SignalId) : Json :=
  match signal_id with
  | SignalStr s => JStr s
  | SignalInt n => JInt n
  end.

(** [d.update(k=v)]: an existing key keeps its place and takes the new
    value, a new key goes last. *)
Fixpoint dict_update (k : string) (v : Json) (d : list (string * Json))
    : list (string * Json) :=
  match d with
  | [] => [(k, v)]
  | (k', v') :: rest =>
    if decide (k' = k) then (k', v) :: rest
    else (k', v') :: dict_update k v rest
  end.

Record MatchSummary := mkMatchSummary {
  sum_content_id : string;
  sum_signal_id : SignalId;
  sum_signal_source : string;
  sum_updated_at : string;
  reactions : string
}.

Record MatchSummariesResponse := mkMatchSummariesResponse {
  match_summaries : list MatchSummary
}.

Record MatchDetailsResponse := mkMatchDetailsResponse {
  match_details_of : list MatchDetail
}.

(** [MatchSummary.to_json]: [asdict(self)]. *)
Definition MatchSummary_to_json (self : MatchSummary)
    : list (string * Json) :=
  [ ("content_id", JStr (sum_content_id self));
    ("signal_id", json_of_signal_id (sum_signal_id self));
    ("signal_source", JStr (sum_signal_source self));
    ("updated_at", JStr (sum_updated_at self));
    ("reactions", JStr (reactions self)) ].

Definition MatchSummariesResponse_to_json (self : MatchSummariesResponse)
    : list (string * Json) :=
  [ ("match_summaries",
     JList (map (fun summary => JDict (MatchSummary_to_json summary))
                (match_summaries self))) ].

(** [MatchDetailMetadata.to_json]: [asdict(self)]. *)
Definition MatchDetailMetadata_to_json (self : MatchDetailMetadata)
    : list (string * Json) :=
  [ ("dataset", JStr (dataset self));
    ("tags", JList (map JStr (tags self)));
    ("opinion", JStr (opinion self)) ].

(** [asdict] of a [MatchDetail]; it recurses into the dataclasses of the
    [metadata] list. *)
Definition MatchDetail_asdict (self : MatchDetail) : list (string * Json) :=
  [ ("content_id", JStr (content_id self));
    ("content_hash", JStr (content_hash self));
    ("signal_id", json_of_signal_id (signal_id self));
    ("signal_hash", JStr (signal_hash self));
    ("signal_source", JStr (signal_source self));
    ("signal_type", JStr (signal_type self));
    ("updated_at", JStr (updated_at self));
    ("metadata",
     JList (map (fun datum =>
                   JDict [ ("dataset", JStr (dataset datum));
                           ("tags", JList (map JStr (tags datum)));
                           ("opinion", JStr (opinion datum)) ])
                (metadata self))) ].

Definition MatchDetail_to_json (self : MatchDetail) : list (string * Json) :=
  let result := MatchDetail_asdict self in
  dict_update "metadata"
    (JList (map (fun datum => JDict (MatchDetailMetadata_to_json datum))
                (metadata self)))
    result.

Definition MatchDetailsResponse_to_json (self : MatchDetailsResponse)
    : list (string * Json) :=
  [ ("match_details",
     JList (map (fun detail => JDict (MatchDetail_to_json detail))
                (match_details_of self))) ].

(** The query string of a request to [/]: [bottle.request.query.<name>],
    which is the empty string for an absent parameter. *)
Record RequestQuery := mkRequestQuery {
  signal_q : string;
  signal_source_q : string;
  content_q : string
}.

(** The two further table queries of [PDQMatchRecord] that only the
    listing endpoint uses. *)
Record ListingQueries (M : Models) := mkListingQueries {
  match_get_from_signal :
    Table M → SignalId → string → list (PDQMatchRecord (datetime M));
  get_from_time_range : Table M → list (PDQMatchRecord (datetime M))
}.
Arguments match_get_from_signal {M}.
Arguments get_from_time_range {M}.

(** A table query issued by the listing endpoint. *)
Inductive ListingQuery :=
| ContentIdListing (content_key : string)
| SignalListing (signal_id : SignalId) (signal_source : string)
| TimeRangeListing.

Section Endpoints.
Variable M : Models.
Variable L : ListingQueries M.
Variable dynamodb_table : Table M.
Variable image_folder_key : string.

(** The element expression of the comprehension in [matches]. *)
Definition summary_of_record (record : PDQMatchRecord (datetime M))
    : MatchSummary :=
  mkMatchSummary
    (str_from (String.length image_folder_key) (rec_content_id record))
    (rec_signal_id record)
    (rec_signal_source record)
    (isoformat M (rec_updated_at record))
    "Mocked".

(** [matches()], with the query string as argument.  [x or None] then
    [x or ""] on a string gives the string back, and [if x] tests it for
    being non-empty. *)
Definition matches (request : RequestQuery)
    : MatchSummariesResponse * list ListingQuery :=
  let '(records, issued) :=
    if str_truthy (content_q request) then
      (get_from_content_id M dynamodb_table (content_q request),
       [ContentIdListing (content_q request)])
    else if str_truthy (signal_q request) then
      (match_get_from_signal L dynamodb_table
         (SignalStr (signal_q request)) (signal_source_q request),
       [SignalListing (SignalStr (signal_q request))
                      (signal_source_q request)])
    else
      (get_from_time_range L dynamodb_table, [TimeRangeListing])
  in
  (mkMatchSummariesResponse (map summary_of_record records), issued).

End Endpoints.

End MatchesApi.

(** ** Further concrete inputs *)

Module MoreScenarios.
Import ActionerModels ActionEvaluator Scenarios.

(** A runtime whose transport rejects every message. *)
Definition rejecting_runtime : Runtime :=
  mkRuntime queue_environ decode_key1 (fun _ _ => false).

(** A runtime whose transport accepts action messages only. *)
Definition actions_only_runtime : Runtime :=
  mkRuntime queue_environ decode_key1
    (fun _ msg => match msg with
                  | ActionBody _ => true
                  | ReactionBody _ => false
                  end).


End MoreScenarios.

Module MoreMatchScenarios.
Import Matches MatchesApi MatchScenarios.

Definition one_match_listing : ListingQueries one_match :=
  mkListingQueries one_match
    (fun _ signal_id signal_source =>
       if decide (signal_id = SignalStr "42" ∧ signal_source = "te")
       then [cat_record] else [])
    (fun _ => [cat_record]).

End MoreMatchScenarios.

(** * Properties of the action evaluator *)

Module ActionEvaluatorFacts.
Import ActionerModels ActionEvaluator Reference Scenarios.

(** ** [first_seen] *)

Section FirstSeen.
Context {A : Type} `{EqDecision A}.
Implicit Types (l acc : list A) (x : A).

Lemma elem_of_first_seen l x : x ∈ first_seen l ↔ x ∈ l.
Proof.
  induction l as [|y l IH]; simpl; [done|].
  rewrite !elem_of_cons, list_elem_of_filter, IH.
  destruct (decide (x = y)); tauto.
Qed.

Lemma NoDup_first_seen l : NoDup (first_seen l).
Proof.
  induction l as [|y l IH]; simpl; [constructor|].
  apply NoDup_cons; split.
  - rewrite list_elem_of_filter. intros [Hne _]. by apply Hne.
  - by apply NoDup_filter.
Qed.

Lemma filter_not_in_snoc acc x l :
  filter (fun y => y ∉ acc ++ [x]) l
  = filter (fun y => y ∉ acc) (filter (fun y => y ≠ x) l).
Proof.
  rewrite list_filter_filter. apply list_filter_iff. intros y.
  rewrite not_elem_of_app, list_elem_of_singleton. tauto.
Qed.

Lemma filter_not_in_absorb acc x l :
  x ∈ acc →
  filter (fun y => y ∉ acc) (filter (fun y => y ≠ x) l)
  = filter (fun y => y ∉ acc) l.
Proof.
  intros Hx. rewrite list_filter_filter. apply list_filter_iff.
  intros y. split; [tauto|]. intros Hy. split; [done|]. congruence.
Qed.

Lemma filter_not_in_nil l : filter (fun y => y ∉ @nil A) l = l.
Proof.
  induction l as [|y l IH]; [done|].
  rewrite filter_cons_True by apply not_elem_of_nil. by rewrite IH.
Qed.
End FirstSeen.

Example first_seen_example :
  first_seen [1; 2; 1; 3; 2; 1]%nat = [1; 2; 3]%nat.
Proof. reflexivity. Qed.

(** ** The rule loop *)

(** The loop started from any accumulator only appends: the labels of the
    applicable rules, in first-seen order, minus those already there. *)
Lemma evaluate_loop_from match_message action_rules acc :
  fold_left (evaluate_rule match_message) action_rules acc
  = acc ++ filter (fun l => l ∉ acc)
             (first_seen
                (action_label <$>
                 filter (fun r =>
                   action_rule_applies_to_match_message r match_message)
                   action_rules)).
Proof.
  revert acc.
  induction action_rules as [|rule rules IH]; intros acc; cbn [fold_left].
  - by rewrite app_nil_r.
  - rewrite IH. unfold evaluate_rule.
    destruct (action_rule_applies_to_match_message rule match_message)
      eqn:Happ.
    + rewrite filter_cons_True by (by rewrite Happ).
      cbn [fmap list_fmap first_seen andb].
      case_bool_decide as Hin; cbn [negb].
      * rewrite filter_cons_False by (intros Hn; by apply Hn).
        by rewrite filter_not_in_absorb.
      * rewrite filter_cons_True by done.
        by rewrite <- app_assoc, filter_not_in_snoc.
    + rewrite filter_cons_False by (by rewrite Happ). done.
Qed.

Lemma evaluate_rules_first_seen action_rules match_message :
  evaluate_rules action_rules match_message
  = first_seen
      (action_label <$>
       filter (fun r => action_rule_applies_to_match_message r match_message)
              action_rules).
Proof.
  unfold evaluate_rules. rewrite evaluate_loop_from. simpl.
  apply filter_not_in_nil.
Qed.

Lemma remove_superseded_actions_id action_labels :
  remove_superseded_actions action_labels = action_labels.
Proof. reflexivity. Qed.

Example evaluate_source_rule :
  get_action_labels collaboration_match = [enqueue_for_review].
Proof. reflexivity. Qed.

Example evaluate_shared_label :
  evaluate_rules rules_with_shared_label collaboration_match
  = [label_A; label_B].
Proof. reflexivity. Qed.

Example evaluate_no_rule :
  evaluate_rules [] collaboration_match = [].
Proof. reflexivity. Qed.

(** C1. For every match message and every rule list, the labels produced
    by the rule loop of [get_action_labels] (before supersession removal)
    contain no duplicate, and they are the labels of the applicable rules
    in first-seen order; rules appended to the list never reorder or
    remove what the earlier rules produced. *)
Theorem evaluate_rules_nodup_first_seen
    (action_rules : list ActionRule) (match_message : MatchMessage) :
  NoDup (evaluate_rules action_rules match_message)
  ∧ evaluate_rules action_rules match_message
    = first_seen
        (action_label <$>
         filter (fun r =>
           action_rule_applies_to_match_message r match_message)
           action_rules)
  ∧ ∀ more_rules,
      evaluate_rules action_rules match_message
      `prefix_of` evaluate_rules (action_rules ++ more_rules) match_message.
Proof.
  split; [|split].
  - rewrite evaluate_rules_first_seen. apply NoDup_first_seen.
  - apply evaluate_rules_first_seen.
  - intros more_rules. unfold evaluate_rules at 2.
    rewrite fold_left_app, evaluate_loop_from.
    by apply prefix_app_r.
Qed.

(** C2. The docstring of [action_rule_applies_to_match_message] promises
    the label test, yet the function answers true whatever the labels
    are: the rule of [get_action_rules] requires the collaboration label
    and still applies to [MatchMessage("key", "hash", [])], which has no
    label, and a rule that excludes the collaboration label still
    contributes its action label to a match carrying that label. *)
Theorem rule_applies_whatever_the_labels :
  action_rule_applies_to_match_message source_rule main_match_message = true
  ∧ ¬ rule_applies_as_documented source_rule main_match_message
  ∧ get_action_labels main_match_message = [enqueue_for_review]
  ∧ action_rule_applies_to_match_message excluding_rule collaboration_match
    = true
  ∧ ¬ rule_applies_as_documented excluding_rule collaboration_match
  ∧ evaluate_rules [excluding_rule] collaboration_match
    = [enqueue_for_review].
Proof.
  repeat split.
  - intros [Hsub _].
    apply (not_elem_of_nil collaboration), Hsub, list_elem_of_singleton.
    reflexivity.
  - intros [_ Hnone].
    apply (Hnone collaboration); apply list_elem_of_singleton; reflexivity.
Qed.

(** C3. With [A] superseding [B] and [B] superseding [C], the docstring
    of [remove_superseded_actions] has the superseded labels removed, but
    the function hands back [A, B, C] as it received it; it does the same
    with the one supersession that [get_actions] itself declares. *)
Theorem supersession_chain_left_unresolved :
  remove_superseded_actions [label_A; label_B; label_C]
  = [label_A; label_B; label_C]
  ∧ remove_superseded_actions [label_A; label_B; label_C] ≠ [label_A]
  ∧ superseded_by get_actions more_important_action enqueue_for_review_action
  ∧ remove_superseded_actions
      [more_important_action; enqueue_for_review_action]
    = [more_important_action; enqueue_for_review_action].
Proof.
  split; [reflexivity|]. split; [discriminate|]. split; [|reflexivity].
  eexists. split; [apply list_elem_of_singleton; reflexivity|].
  split; [reflexivity|]. apply list_elem_of_singleton. reflexivity.
Qed.

Lemma removed_labels_self action_labels :
  removed_labels action_labels action_labels = [].
Proof.
  apply elem_of_nil_inv. intros l. unfold removed_labels.
  rewrite list_elem_of_filter. tauto.
Qed.

(** C4. For every input sequence, the output of
    [remove_superseded_actions] is a subsequence of the input, and every
    label that was removed is superseded by a label of the output,
    whichever supersession relation the Action definitions induce. *)
Theorem remove_superseded_actions_only_removes_superseded
    (supersedes : ActionLabel → ActionLabel → Prop)
    (action_labels : list ActionLabel) :
  remove_superseded_actions action_labels `sublist_of` action_labels
  ∧ Forall (fun removed =>
              ∃ winner, winner ∈ remove_superseded_actions action_labels
                        ∧ supersedes winner removed)
           (removed_labels action_labels
              (remove_superseded_actions action_labels)).
Proof.
  rewrite remove_superseded_actions_id, removed_labels_self.
  split; [reflexivity | constructor].
Qed.

End ActionEvaluatorFacts.

(** * Properties of the lambda handler *)

Module LambdaHandlerFacts.
Import ActionerModels ActionEvaluator Reference Scenarios.

(** ** The monad of the handler *)

Lemma ret_history_independent {A} (a : A) : history_independent (ret a).
Proof. intros log. unfold ret. simpl. by rewrite app_nil_r. Qed.

Lemma raise_history_independent {A} e :
  history_independent (@raise A e).
Proof. intros log. unfold raise. simpl. by rewrite app_nil_r. Qed.

Lemma bind_history_independent {A B} (c : Lambda A) (k : A → Lambda B) :
  history_independent c →
  (∀ a, history_independent (k a)) →
  history_independent (bind c k).
Proof.
  intros Hc Hk log. unfold bind. rewrite (Hc log).
  destruct (c []) as [[a|e] out] eqn:Hrun; simpl.
  - rewrite (Hk a (log ++ out)), (Hk a out). simpl.
    by rewrite app_assoc.
  - done.
Qed.

Lemma for_each_history_independent {A} (xs : list A) f :
  (∀ x, history_independent (f x)) →
  history_independent (for_each xs f).
Proof.
  intros Hf. induction xs as [|x xs IH]; simpl.
  - apply ret_history_independent.
  - apply bind_history_independent; [apply Hf | intros _; apply IH].
Qed.

Lemma send_message_history_independent rt q m :
  history_independent (send_message rt q m).
Proof.
  intros log. unfold send_message.
  destruct (sqs_accepts rt q m); simpl; [done | by rewrite app_nil_r].
Qed.

Lemma parse_record_history_independent rt r :
  history_independent (parse_record rt r).
Proof.
  unfold parse_record. destruct (decode rt (body r)).
  - apply ret_history_independent.
  - apply raise_history_independent.
Qed.

Lemma process_record_history_independent rt p config r :
  history_independent (process_record_with rt p config r).
Proof.
  unfold process_record_with.
  apply bind_history_independent;
    [apply parse_record_history_independent | intros mm].
  apply bind_history_independent.
  - apply for_each_history_independent. intros l.
    apply send_message_history_independent.
  - intros _. destruct (reacting_is_enabled p mm);
      [|apply ret_history_independent].
    destruct (reaction_labels p mm (get_action_labels mm))
      as [|reaction rest] eqn:Hlabels;
      [apply ret_history_independent|].
    apply for_each_history_independent. intros l.
    apply send_message_history_independent.
Qed.

Lemma for_each_app {A} (xs ys : list A) f log :
  for_each (xs ++ ys) f log
  = bind (for_each xs f) (fun _ => for_each ys f) log.
Proof.
  revert log. induction xs as [|x xs IH]; intros log; simpl; [done|].
  unfold bind in *.
  destruct (f x log) as [[[]|e] log1]; [apply IH | done].
Qed.

(** A loop returns exactly when every iteration, run on its own,
    returns. *)
Lemma for_each_returned {A} (xs : list A) f log :
  (∀ x, history_independent (f x)) →
  returned (fst (for_each xs f log))
  = forallb (fun x => returned (fst (f x []))) xs.
Proof.
  intros Hf. revert log.
  induction xs as [|x xs IH]; intros log; simpl; [done|].
  unfold bind. rewrite (Hf x log).
  destruct (fst (f x [])) as [[]|e]; simpl; [apply IH | done].
Qed.

(** Reading the configuration publishes nothing. *)
Lemma config_get_run rt log :
  ActionEvaluatorConfig_get rt log
  = (fst (ActionEvaluatorConfig_get rt []), log).
Proof.
  unfold ActionEvaluatorConfig_get, bind, getenv.
  destruct (environ rt "ACTIONS_QUEUE_URL"); [|done].
  cbn [ret].
  destruct (environ rt "REACTIONS_QUEUE_URL"); done.
Qed.

(** ** Sending one message per label *)

Lemma send_message_run rt q m log :
  send_message rt q m log
  = if sqs_accepts rt q m
    then (Returned tt, log ++ [mkSent q m])
    else (Raised (PublishFailure q m), log).
Proof. reflexivity. Qed.

(** A sending loop publishes a prefix of its messages, in order. *)
Lemma for_each_send_prefix {A} rt q (mk : A → MessageBody) xs log :
  ∃ n, snd (for_each xs (fun x => send_message rt q (mk x)) log)
       = log ++ (mkSent q ∘ mk <$> take n xs).
Proof.
  revert log. induction xs as [|x xs IH]; intros log; simpl.
  - exists 0%nat. by rewrite app_nil_r.
  - unfold bind. rewrite send_message_run.
    destruct (sqs_accepts rt q (mk x)).
    + destruct (IH (log ++ [mkSent q (mk x)])) as [n Hn].
      exists (S n). rewrite Hn. simpl. by rewrite <- app_assoc.
    + exists 0%nat. simpl. by rewrite app_nil_r.
Qed.

(** When the transport accepts everything, all of them are published. *)
Lemma for_each_send_all {A} rt q (mk : A → MessageBody) xs log :
  (∀ queue msg, sqs_accepts rt queue msg = true) →
  for_each xs (fun x => send_message rt q (mk x)) log
  = (Returned tt, log ++ (mkSent q ∘ mk <$> xs)).
Proof.
  intros Hacc. revert log.
  induction xs as [|x xs IH]; intros log; simpl.
  - unfold ret. by rewrite app_nil_r.
  - unfold bind. rewrite send_message_run, Hacc, IH.
    by rewrite <- app_assoc.
Qed.

(** ** The handler on concrete batches *)

Example handler_one_record :
  lambda_handler runtime (mkEvent [good_record]) []
  = (Returned evaluation_completed,
     [ mkSent "actions-queue"
         (ActionBody (mkActionMessage collaboration_match enqueue_for_review));
       mkSent "reactions-queue"
         (ReactionBody
            (mkReactionMessage collaboration_match
               (ThreatExchangeReactionLabel "SAW_THIS_TOO"))) ]).
Proof. reflexivity. Qed.

Example handler_empty_batch :
  lambda_handler runtime (mkEvent []) [] = (Returned evaluation_completed, []).
Proof. reflexivity. Qed.

Example handler_without_queue_locators :
  lambda_handler (mkRuntime (fun _ => None) decode_key1 (fun _ _ => true))
                 (mkEvent [good_record]) []
  = (Raised (KeyError "ACTIONS_QUEUE_URL"), []).
Proof. reflexivity. Qed.

Example handler_gate_off :
  lambda_handler_with runtime gate_off (mkEvent [good_record]) []
  = (Returned evaluation_completed,
     [ mkSent "actions-queue"
         (ActionBody
            (mkActionMessage collaboration_match enqueue_for_review)) ]).
Proof. reflexivity. Qed.

Example handler_rejected_action :
  lambda_handler (mkRuntime queue_environ decode_key1 (fun _ _ => false))
                 (mkEvent [good_record]) []
  = (Raised
       (PublishFailure "actions-queue"
          (ActionBody
             (mkActionMessage collaboration_match enqueue_for_review))),
     []).
Proof. reflexivity. Qed.

(** ** The reaction gate *)

Lemma action_messages_are_not_reactions q mm labels (P : Sent → Prop) :
  Forall (fun s => is_reaction s = true → P s)
         (mkSent q ∘ (fun l => ActionBody (mkActionMessage mm l)) <$> labels).
Proof. apply Forall_fmap, Forall_forall. intros l _ Hreaction. discriminate. Qed.

(** Every ReactionMessage published for a record was published with the
    gate answering true for the record's match message. *)
Lemma process_record_reactions_need_gate rt p config r log :
  ∃ out,
    snd (process_record_with rt p config r log) = log ++ out
    ∧ Forall (fun s =>
                is_reaction s = true →
                ∃ mm, decode rt (body r) = Some mm
                      ∧ reacting_is_enabled p mm = true)
             out.
Proof.
  unfold process_record_with, bind, parse_record.
  destruct (decode rt (body r)) as [mm|] eqn:Hdecode.
  - cbn [ret].
    destruct (for_each_send_prefix rt (actions_queue_url config)
                (fun l => ActionBody (mkActionMessage mm l))
                (get_action_labels mm) log) as [n Hn].
    destruct (for_each (get_action_labels mm) _ log)
      as [[[]|e] log1] eqn:Hrun; cbn [snd] in Hn; subst log1.
    + destruct (reacting_is_enabled p mm) eqn:Hgate.
      * destruct (reaction_labels p mm (get_action_labels mm))
          as [|reaction rest] eqn:Hlabels.
        -- cbn [ret snd]. eexists; split; [reflexivity|].
           apply action_messages_are_not_reactions.
        -- destruct (for_each_send_prefix rt (reactions_queue_url config)
                       (fun l => ReactionBody (mkReactionMessage mm l))
                       (reaction :: rest)
                       (log ++ (mkSent (actions_queue_url config)
                                ∘ (fun l => ActionBody (mkActionMessage mm l))
                                <$> take n (get_action_labels mm))))
             as [k Hk].
           rewrite Hk, <- app_assoc.
           eexists; split; [reflexivity|].
           apply Forall_app; split;
             [apply action_messages_are_not_reactions|].
           apply Forall_forall. intros s _ _. by exists mm.
      * cbn [ret snd]. eexists; split; [reflexivity|].
        apply action_messages_are_not_reactions.
    + cbn [snd]. eexists; split; [reflexivity|].
      apply action_messages_are_not_reactions.
  - exists []. split; [by rewrite app_nil_r | constructor].
Qed.

(** C5. For every record, if the reaction gate answers false for the
    record's match message, then processing the record adds no
    ReactionMessage to what was published before, whatever the reaction
    resolver would return and whatever the transport does. *)
Theorem gate_off_publishes_no_reaction
    (rt : Runtime) (p : Policy) (config : ActionEvaluatorConfig)
    (sqs_record : SqsRecord) (log : list Sent) :
  (∀ mm, decode rt (body sqs_record) = Some mm →
         reacting_is_enabled p mm = false) →
  ∃ out,
    snd (process_record_with rt p config sqs_record log) = log ++ out
    ∧ Forall (fun s => is_reaction s = false) out.
Proof.
  intros Hgate.
  destruct (process_record_reactions_need_gate rt p config sqs_record log)
    as (out & Hout & Hneed).
  exists out. split; [exact Hout|].
  eapply Forall_impl; [exact Hneed|]. intros s Hs. cbn beta in Hs.
  destruct (is_reaction s); [|reflexivity].
  destruct (Hs eq_refl) as (mm & Hdecode & Hon).
  rewrite (Hgate mm Hdecode) in Hon. discriminate.
Qed.

Lemma gate_off_publishes_no_reaction_witness :
  decode runtime (body good_record) = Some collaboration_match
  ∧ reaction_labels gate_off collaboration_match
      (get_action_labels collaboration_match) ≠ []
  ∧ ∃ out,
      snd (process_record_with runtime gate_off queues good_record [])
      = [] ++ out
      ∧ Forall (fun s => is_reaction s = false) out.
Proof.
  split; [reflexivity|]. split; [discriminate|].
  apply gate_off_publishes_no_reaction.
  intros mm _. reflexivity.
Defined.

(** The same over a whole batch: with the gate off for every match
    message, the handler publishes no ReactionMessage at all. *)
Lemma gate_off_batch_publishes_no_reaction rt p event log :
  (∀ mm, reacting_is_enabled p mm = false) →
  ∃ out,
    snd (lambda_handler_with rt p event log) = log ++ out
    ∧ Forall (fun s => is_reaction s = false) out.
Proof.
  intros Hgate. unfold lambda_handler_with, bind.
  rewrite config_get_run.
  destruct (fst (ActionEvaluatorConfig_get rt [])) as [config|e];
    [|exists []; split; [by rewrite app_nil_r | constructor]].
  assert (Hloop : ∀ records start,
    ∃ out,
      snd (for_each records (process_record_with rt p config) start)
      = start ++ out
      ∧ Forall (fun s => is_reaction s = false) out).
  { induction records as [|r records IH]; intros start.
    - exists []. split; [by rewrite app_nil_r | constructor].
    - cbn [for_each]. unfold bind.
      destruct (process_record_reactions_need_gate rt p config r start)
        as (out1 & Hout1 & Hneed).
      assert (Hclean : Forall (fun s => is_reaction s = false) out1).
      { eapply Forall_impl; [exact Hneed|]. intros s Hs. cbn beta in Hs.
        destruct (is_reaction s); [|reflexivity].
        destruct (Hs eq_refl) as (mm & _ & Hon).
        rewrite Hgate in Hon. discriminate. }
      destruct (process_record_with rt p config r start)
        as [[[]|e] log1]; cbn [snd] in Hout1; subst log1.
      + destruct (IH (start ++ out1)) as (out2 & Hout2 & Hclean2).
        exists (out1 ++ out2). rewrite Hout2, <- app_assoc.
        split; [reflexivity|]. by apply Forall_app.
      + by exists out1. }
  destruct (Hloop (Records event) log) as (out & Hout & Hclean).
  destruct (for_each (Records event) _ log) as [[[]|e] log1];
    cbn [snd ret] in *; by exists out.
Qed.

(** ** Repeated evaluation *)

Lemma published_action_labels_actions q mm labels :
  published_action_labels
    (mkSent q ∘ (fun l => ActionBody (mkActionMessage mm l)) <$> labels)
  = labels.
Proof.
  induction labels as [|l ls IH]; [done|].
  rewrite fmap_cons.
  change (l :: published_action_labels
                 (mkSent q ∘ (fun l => ActionBody (mkActionMessage mm l))
                  <$> ls) = l :: ls).
  by rewrite IH.
Qed.

Lemma published_action_labels_app log1 log2 :
  published_action_labels (log1 ++ log2)
  = published_action_labels log1 ++ published_action_labels log2.
Proof. unfold published_action_labels. apply omap_app. Qed.

(** C6. Evaluation followed by supersession removal is repeatable: when
    a record that decodes to a match message is processed twice over the
    same rule and action definitions, both runs publish the same messages
    in the same order, their action labels being [get_action_labels] of
    the message both times; and [remove_superseded_actions] leaves an
    already resolved sequence unchanged. *)
Theorem evaluate_resolve_repeatable
    (rt : Runtime) (config : ActionEvaluatorConfig)
    (sqs_record : SqsRecord) (mm : MatchMessage) (log : list Sent) :
  decode rt (body sqs_record) = Some mm →
  (∀ queue msg, sqs_accepts rt queue msg = true) →
  ∃ out,
    process_record rt config sqs_record log = (Returned tt, log ++ out)
    ∧ process_record rt config sqs_record (log ++ out)
      = (Returned tt, (log ++ out) ++ out)
    ∧ published_action_labels out = get_action_labels mm
    ∧ remove_superseded_actions (get_action_labels mm)
      = get_action_labels mm
    ∧ ∀ labels,
        remove_superseded_actions (remove_superseded_actions labels)
        = remove_superseded_actions labels.
Proof.
  intros Hdecode Hacc.
  assert (Hrun : ∀ start,
    process_record rt config sqs_record start
    = (Returned tt,
       start ++
       ((mkSent (actions_queue_url config)
         ∘ (fun l => ActionBody (mkActionMessage mm l))
         <$> get_action_labels mm)
        ++ [mkSent (reactions_queue_url config)
              (ReactionBody
                 (mkReactionMessage mm
                    (ThreatExchangeReactionLabel "SAW_THIS_TOO")))]))).
  { intros start.
    unfold process_record, process_record_with, bind, parse_record.
    rewrite Hdecode. cbn [ret]. rewrite for_each_send_all by done.
    cbn [source_policy reacting_is_enabled reaction_labels
         threat_exchange_reacting_is_enabled
         get_threat_exchange_reaction_labels for_each bind].
    unfold bind. rewrite send_message_run, Hacc. cbn [ret].
    by rewrite <- app_assoc. }
  eexists. split; [apply Hrun|]. split; [apply Hrun|].
  split; [|split; [reflexivity | intros labels; reflexivity]].
  rewrite published_action_labels_app, published_action_labels_actions.
  apply app_nil_r.
Qed.

Lemma evaluate_resolve_repeatable_witness :
  ∃ out,
    process_record runtime queues good_record [] = (Returned tt, [] ++ out)
    ∧ process_record runtime queues good_record ([] ++ out)
      = (Returned tt, ([] ++ out) ++ out)
    ∧ published_action_labels out = get_action_labels collaboration_match
    ∧ remove_superseded_actions (get_action_labels collaboration_match)
      = get_action_labels collaboration_match
    ∧ ∀ labels,
        remove_superseded_actions (remove_superseded_actions labels)
        = remove_superseded_actions labels.
Proof.
  apply (evaluate_resolve_repeatable runtime queues good_record
           collaboration_match []).
  - reflexivity.
  - intros queue msg. reflexivity.
Defined.

(** ** Malformed records *)

Lemma process_malformed_record rt p config r log :
  decode rt (body r) = None →
  process_record_with rt p config r log
  = (Raised (MalformedInput (body r)), log).
Proof.
  intros Hdecode. unfold process_record_with, bind, parse_record.
  by rewrite Hdecode.
Qed.

(** C7, as the handler behaves. For every batch, a record whose envelope
    fails to parse makes the handler raise at that record: the records
    before it are processed as if they were the whole batch, and the
    failing record and every record after it publish nothing. *)
Theorem malformed_record_aborts_rest
    (rt : Runtime) (p : Policy) (before : list SqsRecord)
    (bad : SqsRecord) (after : list SqsRecord) (log : list Sent) :
  decode rt (body bad) = None →
  lambda_handler_with rt p (mkEvent (before ++ bad :: after)) log
  = match lambda_handler_with rt p (mkEvent before) log with
    | (Returned _, log') => (Raised (MalformedInput (body bad)), log')
    | (Raised e, log') => (Raised e, log')
    end.
Proof.
  intros Hdecode. unfold lambda_handler_with, bind. cbn [Records].
  destruct (ActionEvaluatorConfig_get rt log) as [[config|e] log0];
    [|done].
  rewrite for_each_app. unfold bind.
  destruct (for_each before _ log0) as [[[]|e] log1]; [|done].
  cbn [for_each ret]. unfold bind.
  by rewrite process_malformed_record.
Qed.

Lemma malformed_record_aborts_rest_witness :
  lambda_handler_with runtime source_policy
    (mkEvent ([good_record] ++ bad_record :: [good_record])) []
  = match lambda_handler_with runtime source_policy
            (mkEvent [good_record]) [] with
    | (Returned _, log') => (Raised (MalformedInput (body bad_record)), log')
    | (Raised e, log') => (Raised e, log')
    end.
Proof.
  apply (malformed_record_aborts_rest runtime source_policy
           [good_record] bad_record [good_record] []).
  reflexivity.
Defined.

(** C7, as stated, fails: in the batch of a malformed record followed by
    a well-formed one the handler raises at the first record and the
    well-formed sibling, which publishes two messages on its own, is
    never processed. *)
Lemma malformed_record_not_isolated :
  lambda_handler runtime (mkEvent [bad_record; good_record]) []
  = (Raised (MalformedInput "not a match message"), [])
  ∧ length (snd (process_record runtime queues good_record [])) = 2%nat
  ∧ ¬ siblings_processed runtime queues
        (mkEvent [bad_record; good_record]).
Proof.
  split; [reflexivity|]. split; [reflexivity|].
  intros Hall.
  assert (Hin : mkSent "actions-queue"
                  (ActionBody
                     (mkActionMessage collaboration_match enqueue_for_review))
                ∈ snd (lambda_handler runtime
                         (mkEvent [bad_record; good_record]) [])).
  { apply (Hall good_record).
    - cbn [Records]. apply list_elem_of_In. right. left. reflexivity.
    - exists collaboration_match. reflexivity.
    - apply list_elem_of_In. left. reflexivity. }
  by apply not_elem_of_nil in Hin.
Qed.

(** ** The batch summary *)

(** C8, as the handler behaves. For every batch, a value returned by
    [lambda_handler] is the one constant summary; it is returned exactly
    when the queue locators are configured and every record of the batch
    goes through without an exception, and in every other case the
    handler raises instead of returning a summary. *)
Theorem lambda_handler_summary_is_constant
    (rt : Runtime) (event : Event) (log : list Sent) :
  (fst (lambda_handler rt event log) = Returned evaluation_completed
   ∨ returned (fst (lambda_handler rt event log)) = false)
  ∧ returned (fst (lambda_handler rt event log))
    = match fst (ActionEvaluatorConfig_get rt []) with
      | Returned config =>
          forallb (record_succeeds rt config) (Records event)
      | Raised _ => false
      end.
Proof.
  unfold lambda_handler, lambda_handler_with, bind.
  rewrite config_get_run.
  destruct (fst (ActionEvaluatorConfig_get rt [])) as [config|e];
    [|split; [by right | done]].
  pose proof (for_each_returned (Records event)
                (process_record_with rt source_policy config) log
                (process_record_history_independent rt source_policy config))
    as Hret.
  destruct (for_each (Records event) _ log) as [[[]|e] log1];
    cbn [fst returned ret] in *.
  - split; [by left | exact Hret].
  - split; [by right | exact Hret].
Qed.

(** C8, as stated, fails: a partially failed batch and a fully failed
    batch give the same result, so nothing computed from the handler's
    result tells the three outcomes apart. *)
Lemma summary_does_not_distinguish_outcomes :
  ¬ ∃ classify : Result Summary → BatchOutcome,
      ∀ event,
        classify (fst (lambda_handler runtime event []))
        = batch_outcome (record_succeeds runtime queues <$> Records event).
Proof.
  intros [classify Hclassify].
  pose proof (Hclassify (mkEvent [good_record; bad_record])) as Hpartial.
  pose proof (Hclassify (mkEvent [bad_record])) as Hfailed.
  vm_compute in Hpartial, Hfailed. congruence.
Qed.

End LambdaHandlerFacts.

(** * Properties of the match query API *)

Module MatchesFacts.
Import Matches MatchScenarios.

Example match_details_of_cat :
  get_match_details one_match tt "cat.jpg" "images/"
  = ([ mkMatchDetail "cat.jpg" "cafe" (SignalInt 42) "beef" "te" "pdq"
         "2021-03-01T00:00:00"
         [mkMatchDetailMetadata "ds1" ["nsfw"] "False Positive"] ],
     [ ByContentId "images/cat.jpg"; BySignal (SignalInt 42) "te" ]).
Proof. reflexivity. Qed.

Example match_details_of_unknown_content :
  get_match_details one_match tt "dog.jpg" "images/"
  = ([], [ByContentId "images/dog.jpg"]).
Proof. reflexivity. Qed.

Example signal_details_of_zero :
  get_signal_details one_match tt (SignalInt 0) "te" = ([], []).
Proof. reflexivity. Qed.

Example opinion_of_disputed_only :
  get_opinion_from_tags one_match ["nsfw"; "disputed"]
  = OpinionString.DISPUTED.
Proof. reflexivity. Qed.

Section WithModels.
Variable M : Models.

#[local] Abbreviation TRUE_POSITIVE := (ThreatDescriptor.TRUE_POSITIVE (descriptor M)).
#[local] Abbreviation FALSE_POSITIVE := (ThreatDescriptor.FALSE_POSITIVE (descriptor M)).
#[local] Abbreviation DISPUTED := (ThreatDescriptor.DISPUTED (descriptor M)).

(** With non-empty keys the signal lookup does query the table, once. *)
Lemma get_signal_details_queries table signal_id signal_source :
  signal_id_truthy signal_id = true →
  str_truthy signal_source = true →
  snd (get_signal_details M table signal_id signal_source)
  = [BySignal signal_id signal_source].
Proof.
  intros Hid Hsource. unfold get_signal_details.
  rewrite Hid, Hsource. reflexivity.
Qed.

(** So does the match lookup, before anything else. *)
Lemma get_match_details_queries table content_id image_folder_key :
  str_truthy content_id = true →
  ∃ rest,
    snd (get_match_details M table content_id image_folder_key)
    = ByContentId (image_folder_key +:+ content_id) :: rest.
Proof.
  intros Hid. unfold get_match_details. rewrite Hid.
  cbn [negb query and_then].
  destruct (comprehension _ _) as [details trace].
  by exists trace.
Qed.

(** C9. For every table, [get_match_details] returns the empty list
    and issues no table query when [content_id] is empty, and
    [get_signal_details] returns the empty list and issues no table
    query when [signal_id] is empty or [signal_source] is empty. *)
Theorem empty_keys_short_circuit (table : Table M) :
  (∀ image_folder_key,
      get_match_details M table "" image_folder_key = ([], []))
  ∧ (∀ signal_source,
      get_signal_details M table (SignalStr "") signal_source = ([], []))
  ∧ (∀ signal_id,
      get_signal_details M table signal_id "" = ([], [])).
Proof.
  split; [|split].
  - intros image_folder_key. reflexivity.
  - intros signal_source. reflexivity.
  - intros signal_id. unfold get_signal_details.
    by rewrite orb_true_r.
Qed.

Lemma opinion_tags_elem tag :
  tag ∈ opinion_tags M
  ↔ tag = TRUE_POSITIVE ∨ tag = FALSE_POSITIVE ∨ tag = DISPUTED.
Proof.
  unfold opinion_tags.
  rewrite !elem_of_cons, elem_of_nil. tauto.
Qed.

(** C10. For every list of tags, the opinion is resolved by a fixed
    precedence: "True Positive" exactly when the TRUE_POSITIVE tag is
    present, otherwise "False Positive" exactly when FALSE_POSITIVE is
    present, otherwise "Unknown (Disputed)" exactly when DISPUTED is
    present, otherwise "Unknown"; and none of the three opinion tags
    occurs in the tag list of any MatchDetailMetadata returned by
    [get_signal_details]. *)
Theorem opinion_precedence_and_tags_filtered :
  (∀ tags : list string,
      let opinion := OpinionString.value (get_opinion_from_tags M tags) in
      (opinion = "True Positive" ↔ TRUE_POSITIVE ∈ tags)
      ∧ (opinion = "False Positive"
         ↔ (TRUE_POSITIVE ∉ tags) ∧ FALSE_POSITIVE ∈ tags)
      ∧ (opinion = "Unknown (Disputed)"
         ↔ (TRUE_POSITIVE ∉ tags) ∧ (FALSE_POSITIVE ∉ tags)
           ∧ DISPUTED ∈ tags)
      ∧ (opinion = "Unknown"
         ↔ (TRUE_POSITIVE ∉ tags) ∧ (FALSE_POSITIVE ∉ tags)
           ∧ (DISPUTED ∉ tags)))
  ∧ ∀ (table : Table M) signal_id signal_source,
      Forall (fun detail =>
                (TRUE_POSITIVE ∉ tags detail)
                ∧ (FALSE_POSITIVE ∉ tags detail)
                ∧ (DISPUTED ∉ tags detail))
             (fst (get_signal_details M table signal_id signal_source)).
Proof.
  split.
  - intros tags opinion. subst opinion. unfold get_opinion_from_tags.
    repeat case_bool_decide; cbn [OpinionString.value];
      repeat split; intros; try tauto; try discriminate.
  - intros table signal_id signal_source. unfold get_signal_details.
    destruct (negb (signal_id_truthy signal_id)
              || negb (str_truthy signal_source)); [constructor|].
    cbn [query and_then pure fst]. apply Forall_fmap, Forall_forall.
    intros metadata _. cbn [compose signal_metadata_detail tags].
    repeat split; intros Hin; apply list_elem_of_filter in Hin as [Hout _];
      apply Hout, opinion_tags_elem; tauto.
Qed.

End WithModels.

End MatchesFacts.


(** * Further properties of the rule loop *)

Module ActionEvaluatorExtras.
Import ActionerModels ActionEvaluator Reference Scenarios.
Import ActionEvaluatorFacts.

Lemma length_first_seen {A} `{EqDecision A} (l : list A) :
  (length (first_seen l) ≤ length l)%nat.
Proof.
  induction l as [|x l IH]; [done|]. cbn [first_seen length].
  pose proof (length_filter (fun y => y ≠ x) (first_seen l)). lia.
Qed.

(** A rule that has nothing new to say leaves the accumulator alone. *)
Lemma evaluate_loop_absorbed match_message action_rules acc :
  (∀ rule, rule ∈ action_rules →
     action_rule_applies_to_match_message rule match_message = true →
     action_label rule ∈ acc) →
  fold_left (evaluate_rule match_message) action_rules acc = acc.
Proof.
  induction action_rules as [|rule rules IH]; intros Hknown; [done|].
  cbn [fold_left].
  assert (Hstep : evaluate_rule match_message acc rule = acc).
  { unfold evaluate_rule.
    destruct (action_rule_applies_to_match_message rule match_message)
      eqn:Happ; [|done].
    rewrite bool_decide_eq_true_2; [done|].
    apply Hknown; [left | exact Happ]. }
  rewrite Hstep. apply IH. intros r Hr. apply Hknown. by right.
Qed.

(** A label is produced exactly when some rule of the list applies to the
    match message and carries that label. *)
Theorem evaluate_rules_elem
    (action_rules : list ActionRule) (match_message : MatchMessage)
    (l : ActionLabel) :
  l ∈ evaluate_rules action_rules match_message
  ↔ ∃ rule, rule ∈ action_rules
            ∧ action_rule_applies_to_match_message rule match_message = true
            ∧ action_label rule = l.
Proof.
  rewrite evaluate_rules_first_seen, elem_of_first_seen, list_elem_of_fmap.
  split.
  - intros (rule & -> & Hin). apply list_elem_of_filter in Hin as [Happ Hin].
    exists rule. split; [exact Hin|]. split; [|reflexivity].
    by apply Is_true_true.
  - intros (rule & Hin & Happ & <-). exists rule. split; [reflexivity|].
    apply list_elem_of_filter. split; [|exact Hin]. by apply Is_true_true.
Qed.

(** The loop never produces more labels than there are rules. *)
Theorem evaluate_rules_length
    (action_rules : list ActionRule) (match_message : MatchMessage) :
  (length (evaluate_rules action_rules match_message)
   ≤ length action_rules)%nat.
Proof.
  rewrite evaluate_rules_first_seen.
  etransitivity; [apply length_first_seen|].
  rewrite length_fmap. apply length_filter.
Qed.

(** Rules appended to a rule list change nothing when each of them that
    applies carries a label the list already produces. *)
Theorem evaluate_rules_redundant_rules
    (action_rules more_rules : list ActionRule)
    (match_message : MatchMessage) :
  (∀ rule, rule ∈ more_rules →
     action_rule_applies_to_match_message rule match_message = true →
     action_label rule ∈ evaluate_rules action_rules match_message) →
  evaluate_rules (action_rules ++ more_rules) match_message
  = evaluate_rules action_rules match_message.
Proof.
  intros Hknown. unfold evaluate_rules at 1. rewrite fold_left_app.
  by apply evaluate_loop_absorbed.
Qed.

Lemma evaluate_rules_redundant_rules_witness :
  evaluate_rules (rules_with_shared_label ++ rules_with_shared_label)
                 collaboration_match
  = evaluate_rules rules_with_shared_label collaboration_match.
Proof.
  apply evaluate_rules_redundant_rules.
  intros rule Hin _. unfold rules_with_shared_label in Hin.
  rewrite !elem_of_cons, elem_of_nil in Hin.
  destruct Hin as [-> | [-> | [-> | []]]];
    (eapply bool_decide_unpack; vm_compute; exact I).
Defined.

End ActionEvaluatorExtras.

(** * Further properties of the lambda handler *)

Module LambdaHandlerExtras.
Import ActionerModels ActionEvaluator Reference Scenarios MoreScenarios.
Import LambdaHandlerFacts.

(** ** What one record publishes *)

(** The messages of a record are action messages for labels of its match
    message, sent to the actions queue, followed by reaction messages for
    labels the resolver gave, sent to the reactions queue with the gate
    open. *)
Lemma process_record_published rt p config r log :
  ∃ acts reacts,
    snd (process_record_with rt p config r log) = log ++ acts ++ reacts
    ∧ Forall (fun s =>
                ∃ mm l,
                  s = mkSent (actions_queue_url config)
                             (ActionBody (mkActionMessage mm l))
                  ∧ decode rt (body r) = Some mm
                  ∧ l ∈ get_action_labels mm)
             acts
    ∧ Forall (fun s =>
                ∃ mm l,
                  s = mkSent (reactions_queue_url config)
                             (ReactionBody (mkReactionMessage mm l))
                  ∧ decode rt (body r) = Some mm
                  ∧ reacting_is_enabled p mm = true
                  ∧ l ∈ reaction_labels p mm (get_action_labels mm))
             reacts.
Proof.
  unfold process_record_with, bind, parse_record.
  destruct (decode rt (body r)) as [mm|] eqn:Hdecode;
    [|exists [], []; split; [by rewrite !app_nil_r | by split]].
  cbn [ret].
  destruct (for_each_send_prefix rt (actions_queue_url config)
              (fun l => ActionBody (mkActionMessage mm l))
              (get_action_labels mm) log) as [n Hn].
  assert (Hacts :
    Forall (fun s =>
              ∃ mm' l,
                s = mkSent (actions_queue_url config)
                           (ActionBody (mkActionMessage mm' l))
                ∧ Some mm = Some mm'
                ∧ l ∈ get_action_labels mm')
           (mkSent (actions_queue_url config)
            ∘ (fun l => ActionBody (mkActionMessage mm l))
            <$> take n (get_action_labels mm))).
  { apply Forall_fmap, Forall_forall. intros l Hl.
    exists mm, l. split; [reflexivity|]. split; [reflexivity|].
    by apply (subseteq_take n). }
  destruct (for_each (get_action_labels mm) _ log)
    as [[[]|e] log1] eqn:Hrun; cbn [snd] in Hn; subst log1.
  - destruct (reacting_is_enabled p mm) eqn:Hgate.
    + destruct (reaction_labels p mm (get_action_labels mm))
        as [|reaction rest] eqn:Hlabels.
      * cbn [ret snd]. eexists _, []. rewrite app_nil_r.
        split; [reflexivity|]. by split.
      * destruct (for_each_send_prefix rt (reactions_queue_url config)
                    (fun l => ReactionBody (mkReactionMessage mm l))
                    (reaction :: rest)
                    (log ++ (mkSent (actions_queue_url config)
                             ∘ (fun l => ActionBody (mkActionMessage mm l))
                             <$> take n (get_action_labels mm))))
          as [k Hk].
        rewrite Hk, <- app_assoc. eexists _, _.
        split; [reflexivity|]. split; [exact Hacts|].
        apply Forall_fmap, Forall_forall. intros l Hl.
        exists mm, l. split; [reflexivity|]. split; [reflexivity|].
        split; [exact Hgate|]. rewrite Hlabels. by apply (subseteq_take k).
    + cbn [ret snd]. eexists _, []. rewrite app_nil_r.
      split; [reflexivity|]. by split.
  - cbn [snd]. eexists _, []. rewrite app_nil_r.
    split; [reflexivity|]. by split.
Qed.

(** Within one record, dispatch is ordered and routed: what the record
    publishes is a run of action messages, all sent to the actions queue,
    followed by a run of reaction messages, all sent to the reactions
    queue; no action message follows a reaction message. *)
Theorem record_actions_precede_reactions
    (rt : Runtime) (p : Policy) (config : ActionEvaluatorConfig)
    (sqs_record : SqsRecord) (log : list Sent) :
  ∃ acts reacts,
    snd (process_record_with rt p config sqs_record log)
    = log ++ acts ++ reacts
    ∧ Forall (fun s => is_reaction s = false
                       ∧ QueueUrl s = actions_queue_url config) acts
    ∧ Forall (fun s => is_reaction s = true
                       ∧ QueueUrl s = reactions_queue_url config) reacts.
Proof.
  destruct (process_record_published rt p config sqs_record log)
    as (acts & reacts & Hout & Hacts & Hreacts).
  exists acts, reacts. split; [exact Hout|]. split.
  - eapply Forall_impl; [exact Hacts|].
    intros s (mm & l & -> & _). by split.
  - eapply Forall_impl; [exact Hreacts|].
    intros s (mm & l & -> & _). by split.
Qed.

(** A loop whose iterations only add messages with a given property only
    adds such messages. *)
Lemma for_each_adds {A} (P : Sent → Prop) (xs : list A) f :
  (∀ x start, ∃ out, snd (f x start) = start ++ out ∧ Forall P out) →
  ∀ start, ∃ out, snd (for_each xs f start) = start ++ out ∧ Forall P out.
Proof.
  intros Hf. induction xs as [|x xs IH]; intros start.
  - exists []. split; [by rewrite app_nil_r | constructor].
  - cbn [for_each]. unfold bind.
    destruct (Hf x start) as (out1 & Hout1 & HP1).
    destruct (f x start) as [[[]|e] log1]; cbn [snd] in Hout1; subst log1.
    + destruct (IH (start ++ out1)) as (out2 & Hout2 & HP2).
      exists (out1 ++ out2). rewrite Hout2, <- app_assoc.
      split; [reflexivity|]. by apply Forall_app.
    + by exists out1.
Qed.



(** ** Configuration *)



(** ** Batches *)

(** A batch split in two behaves as the first part followed by the second:
    when the first part returns, the handler goes on with the second part
    from the log the first one left; when the first part raises, the
    second part is never looked at. *)
Theorem handler_batch_split
    (rt : Runtime) (p : Policy) (first_part second_part : list SqsRecord)
    (log : list Sent) :
  lambda_handler_with rt p (mkEvent (first_part ++ second_part)) log
  = match lambda_handler_with rt p (mkEvent first_part) log with
    | (Returned _, log') =>
        lambda_handler_with rt p (mkEvent second_part) log'
    | (Raised e, log') => (Raised e, log')
    end.
Proof.
  unfold lambda_handler_with, bind. cbn [Records].
  rewrite config_get_run.
  destruct (fst (ActionEvaluatorConfig_get rt [])) as [config|e] eqn:Hget;
    [|reflexivity].
  rewrite for_each_app. unfold bind.
  destruct (for_each first_part _ log) as [[[]|e] log1]; [|reflexivity].
  cbn [ret]. by rewrite config_get_run, Hget.
Qed.

(** ** Publishing *)

Lemma get_action_labels_source match_message :
  get_action_labels match_message = [mkActionLabel "EnqueueForReview"].
Proof. reflexivity. Qed.




(** When the transport rejects the action message of a record, the record
    raises the publish failure at once: its reaction message is never
    sent and nothing is added to the log. *)
Theorem rejected_action_stops_record
    (rt : Runtime) (p : Policy) (config : ActionEvaluatorConfig)
    (sqs_record : SqsRecord) (mm : MatchMessage) (log : list Sent) :
  decode rt (body sqs_record) = Some mm →
  sqs_accepts rt (actions_queue_url config)
    (ActionBody (mkActionMessage mm (mkActionLabel "EnqueueForReview")))
  = false →
  process_record_with rt p config sqs_record log
  = (Raised
       (PublishFailure (actions_queue_url config)
          (ActionBody
             (mkActionMessage mm (mkActionLabel "EnqueueForReview")))),
     log).
Proof.
  intros Hdecode Hrejected.
  unfold process_record_with, bind, parse_record.
  rewrite Hdecode. cbn [ret]. rewrite get_action_labels_source.
  cbn [for_each]. unfold bind. by rewrite send_message_run, Hrejected.
Qed.

Lemma rejected_action_stops_record_witness :
  process_record_with rejecting_runtime source_policy queues good_record []
  = (Raised
       (PublishFailure (actions_queue_url queues)
          (ActionBody
             (mkActionMessage collaboration_match
                (mkActionLabel "EnqueueForReview")))),
     []).
Proof.
  apply (rejected_action_stops_record rejecting_runtime source_policy
           queues good_record collaboration_match []); reflexivity.
Defined.

(** Publishing is not transactional: when the transport takes the action
    message of a record and rejects its reaction message, the record
    raises the publish failure and the action message stays published. *)
Theorem rejected_reaction_leaves_action_published
    (rt : Runtime) (config : ActionEvaluatorConfig)
    (sqs_record : SqsRecord) (mm : MatchMessage) (log : list Sent) :
  decode rt (body sqs_record) = Some mm →
  sqs_accepts rt (actions_queue_url config)
    (ActionBody (mkActionMessage mm (mkActionLabel "EnqueueForReview")))
  = true →
  sqs_accepts rt (reactions_queue_url config)
    (ReactionBody
       (mkReactionMessage mm (ThreatExchangeReactionLabel "SAW_THIS_TOO")))
  = false →
  process_record rt config sqs_record log
  = (Raised
       (PublishFailure (reactions_queue_url config)
          (ReactionBody
             (mkReactionMessage mm
                (ThreatExchangeReactionLabel "SAW_THIS_TOO")))),
     log ++
     [ mkSent (actions_queue_url config)
         (ActionBody
            (mkActionMessage mm (mkActionLabel "EnqueueForReview"))) ]).
Proof.
  intros Hdecode Haction Hreaction.
  unfold process_record, process_record_with, bind, parse_record.
  rewrite Hdecode. cbn [ret]. rewrite get_action_labels_source.
  cbn [for_each]. unfold bind. rewrite send_message_run, Haction.
  cbn [ret source_policy reacting_is_enabled reaction_labels
       threat_exchange_reacting_is_enabled
       get_threat_exchange_reaction_labels for_each].
  unfold bind. by rewrite send_message_run, Hreaction.
Qed.

Lemma rejected_reaction_leaves_action_published_witness :
  process_record actions_only_runtime queues good_record []
  = (Raised
       (PublishFailure (reactions_queue_url queues)
          (ReactionBody
             (mkReactionMessage collaboration_match
                (ThreatExchangeReactionLabel "SAW_THIS_TOO")))),
     [] ++
     [ mkSent (actions_queue_url queues)
         (ActionBody
            (mkActionMessage collaboration_match
               (mkActionLabel "EnqueueForReview"))) ]).
Proof.
  apply (rejected_reaction_leaves_action_published actions_only_runtime
           queues good_record collaboration_match []); reflexivity.
Defined.

End LambdaHandlerExtras.

(** * Further properties of the match query API *)

Module MatchesExtras.
Import Matches MatchesApi MatchScenarios MoreMatchScenarios.

(** ** Slicing and comprehensions *)

Lemma str_from_append (folder rest : string) :
  str_from (String.length folder) (folder +:+ rest) = rest.
Proof. induction folder as [|c folder IH]; [by destruct rest | exact IH]. Qed.

Lemma comprehension_fst {A B} (f : A → Traced B) xs :
  fst (comprehension f xs) = (fun x => fst (f x)) <$> xs.
Proof.
  induction xs as [|x xs IH]; [done|].
  cbn [comprehension]. rewrite fmap_cons. cbn beta. unfold and_then, pure.
  destruct (f x) as [y t1]. destruct (comprehension f xs) as [ys t2].
  cbn [fst] in *. by rewrite IH.
Qed.

Lemma comprehension_snd {A B} (f : A → Traced B) xs :
  snd (comprehension f xs) = concat ((fun x => snd (f x)) <$> xs).
Proof.
  induction xs as [|x xs IH]; [done|].
  cbn [comprehension]. rewrite fmap_cons. cbn beta. unfold and_then, pure.
  destruct (f x) as [y t1]. destruct (comprehension f xs) as [ys t2].
  cbn [snd concat] in *. by rewrite IH, app_nil_r.
Qed.

Lemma and_then_query_run {A B} q (rows : A) (k : A → Traced B) :
  and_then (query q rows) k = (fst (k rows), q :: snd (k rows)).
Proof. unfold and_then, query. by destruct (k rows). Qed.

Lemma and_then_pure_run {A B} (c : Traced A) (g : A → B) :
  and_then c (fun a => pure (g a)) = (g (fst c), snd c).
Proof. unfold and_then, pure. destruct c as [a t]. cbn. by rewrite app_nil_r. Qed.

Section WithModels.
Variable M : Models.

#[local] Abbreviation TRUE_POSITIVE :=
  (ThreatDescriptor.TRUE_POSITIVE (descriptor M)).
#[local] Abbreviation FALSE_POSITIVE :=
  (ThreatDescriptor.FALSE_POSITIVE (descriptor M)).
#[local] Abbreviation DISPUTED := (ThreatDescriptor.DISPUTED (descriptor M)).


(** ** [get_signal_details] *)



(** ** [get_opinion_from_tags] *)

(** The opinion depends on which tags are present only, not on their
    order or on how often they occur. *)
Theorem opinion_depends_on_tag_set (tags1 tags2 : list string) :
  (∀ tag, tag ∈ tags1 ↔ tag ∈ tags2) →
  get_opinion_from_tags M tags1 = get_opinion_from_tags M tags2.
Proof.
  intros Hsame. unfold get_opinion_from_tags.
  repeat case_bool_decide; try reflexivity;
    exfalso; rewrite ?Hsame in *; tauto.
Qed.

(** ** [get_match_details] *)

Lemma fmap_ext_all {A B} (f g : A → B) (l : list A) :
  (∀ x, f x = g x) → f <$> l = g <$> l.
Proof. intros Hfg. induction l as [|x l IH]; [done|]. by rewrite !fmap_cons, Hfg, IH. Qed.

Lemma get_signal_details_trace table signal_id signal_source :
  snd (get_signal_details M table signal_id signal_source)
  = if signal_id_truthy signal_id && str_truthy signal_source
    then [BySignal signal_id signal_source] else [].
Proof.
  unfold get_signal_details.
  destruct (signal_id_truthy signal_id), (str_truthy signal_source);
    cbn [negb orb andb]; reflexivity.
Qed.

(** What [get_match_details] computes once the content id is not empty. *)
Lemma get_match_details_run table content_id image_folder_key :
  str_truthy content_id = true →
  get_match_details M table content_id image_folder_key
  = ((fun record =>
        mkMatchDetail
          (str_from (String.length image_folder_key) (rec_content_id record))
          (rec_content_hash record) (rec_signal_id record)
          (rec_signal_hash record) (rec_signal_source record)
          (SIGNAL_TYPE M) (isoformat M (rec_updated_at record))
          (fst (get_signal_details M table (rec_signal_id record)
                                   (rec_signal_source record))))
     <$> get_from_content_id M table (image_folder_key +:+ content_id),
     ByContentId (image_folder_key +:+ content_id)
     :: concat ((fun record =>
                   snd (get_signal_details M table (rec_signal_id record)
                                           (rec_signal_source record)))
                <$> get_from_content_id M table
                      (image_folder_key +:+ content_id))).
Proof.
  intros Hid. unfold get_match_details. rewrite Hid. cbn [negb].
  rewrite and_then_query_run, comprehension_fst, comprehension_snd.
  f_equal; [|f_equal; f_equal];
    apply fmap_ext_all; intros record; by rewrite and_then_pure_run.
Qed.

(** For a non-empty content id, [get_match_details] answers one detail per
    match record the store returns, in the order of the store; a detail
    carries its record's hashes, signal id and signal source, the signal
    type constant, the ISO form of the record's time stamp, and as
    metadata what [get_signal_details] answers for the record's signal. *)
Theorem match_details_follow_records
    (table : Table M) (content_id image_folder_key : string) :
  str_truthy content_id = true →
  Forall2 (fun detail record =>
             Matches.content_hash detail = rec_content_hash record
             ∧ signal_id detail = rec_signal_id record
             ∧ signal_hash detail = rec_signal_hash record
             ∧ signal_source detail = rec_signal_source record
             ∧ signal_type detail = SIGNAL_TYPE M
             ∧ updated_at detail = isoformat M (rec_updated_at record)
             ∧ metadata detail
               = fst (get_signal_details M table (rec_signal_id record)
                                         (rec_signal_source record)))
          (fst (get_match_details M table content_id image_folder_key))
          (get_from_content_id M table (image_folder_key +:+ content_id)).
Proof.
  intros Hid. rewrite get_match_details_run by done. cbn [fst].
  apply Forall2_fmap_l, Forall_Forall2_diag, Forall_forall.
  intros record _. cbn. repeat split.
Qed.

(** The image folder key put in front of the content id for the lookup is
    taken off again: when the store returns records under the key that
    was asked for, every detail carries the bare content id of the
    request. *)
Theorem match_details_strip_folder_key
    (table : Table M) (content_id image_folder_key : string) :
  str_truthy content_id = true →
  Forall (fun record =>
            rec_content_id record = image_folder_key +:+ content_id)
         (get_from_content_id M table (image_folder_key +:+ content_id)) →
  Forall (fun detail => Matches.content_id detail = content_id)
         (fst (get_match_details M table content_id image_folder_key)).
Proof.
  intros Hid Hkeys. rewrite get_match_details_run by done. cbn [fst].
  apply Forall_fmap. eapply Forall_impl; [exact Hkeys|].
  intros record Hkey. cbn. rewrite Hkey. apply str_from_append.
Qed.

(** For a non-empty content id, [get_match_details] queries the store once
    for the match records and then once per record for its signal
    metadata, in record order, skipping the records whose signal id or
    signal source is empty. *)
Theorem match_details_queries_issued
    (table : Table M) (content_id image_folder_key : string) :
  str_truthy content_id = true →
  snd (get_match_details M table content_id image_folder_key)
  = ByContentId (image_folder_key +:+ content_id)
    :: omap (fun record =>
               if signal_id_truthy (rec_signal_id record)
                  && str_truthy (rec_signal_source record)
               then Some (BySignal (rec_signal_id record)
                                   (rec_signal_source record))
               else None)
            (get_from_content_id M table (image_folder_key +:+ content_id)).
Proof.
  intros Hid. rewrite get_match_details_run by done. cbn [snd]. f_equal.
  induction (get_from_content_id M table (image_folder_key +:+ content_id))
    as [|record records IH]; [done|].
  rewrite fmap_cons. cbn [concat omap list_omap].
  rewrite IH, get_signal_details_trace.
  by destruct (signal_id_truthy (rec_signal_id record)
               && str_truthy (rec_signal_source record)).
Qed.

End WithModels.


Lemma opinion_depends_on_tag_set_witness :
  get_opinion_from_tags one_match ["nsfw"; "disputed"]
  = get_opinion_from_tags one_match ["disputed"; "nsfw"; "disputed"].
Proof.
  apply opinion_depends_on_tag_set.
  intros tag. rewrite !elem_of_cons, elem_of_nil. tauto.
Defined.

Lemma match_details_follow_records_witness :
  Forall2 (fun detail record =>
             Matches.content_hash detail = rec_content_hash record
             ∧ signal_id detail = rec_signal_id record
             ∧ signal_hash detail = rec_signal_hash record
             ∧ signal_source detail = rec_signal_source record
             ∧ signal_type detail = SIGNAL_TYPE one_match
             ∧ updated_at detail = isoformat one_match (rec_updated_at record)
             ∧ metadata detail
               = fst (get_signal_details one_match tt (rec_signal_id record)
                                         (rec_signal_source record)))
          (fst (get_match_details one_match tt "cat.jpg" "images/"))
          (get_from_content_id one_match tt ("images/" +:+ "cat.jpg")).
Proof.
  apply (match_details_follow_records one_match tt "cat.jpg" "images/").
  reflexivity.
Defined.

Lemma match_details_strip_folder_key_witness :
  Forall (fun detail => Matches.content_id detail = "cat.jpg")
         (fst (get_match_details one_match tt "cat.jpg" "images/")).
Proof.
  apply (match_details_strip_folder_key one_match tt "cat.jpg" "images/").
  - reflexivity.
  - repeat constructor.
Defined.

Lemma match_details_queries_issued_witness :
  snd (get_match_details one_match tt "cat.jpg" "images/")
  = ByContentId ("images/" +:+ "cat.jpg")
    :: omap (fun record =>
               if signal_id_truthy (rec_signal_id record)
                  && str_truthy (rec_signal_source record)
               then Some (BySignal (rec_signal_id record)
                                   (rec_signal_source record))
               else None)
            (get_from_content_id one_match tt ("images/" +:+ "cat.jpg")).
Proof.
  apply (match_details_queries_issued one_match tt "cat.jpg" "images/").
  reflexivity.
Defined.

(** ** JSON views *)

Lemma map_injective {A B} (f : A → B) (l1 l2 : list A) :
  (∀ x y, f x = f y → x = y) → map f l1 = map f l2 → l1 = l2.
Proof.
  intros Hf. revert l2.
  induction l1 as [|x l1 IH]; intros [|y l2] Heq; try done.
  cbn in Heq. injection Heq as Hxy Hrest.
  f_equal; [by apply Hf | by apply IH].
Qed.

Lemma json_of_signal_id_injective s1 s2 :
  json_of_signal_id s1 = json_of_signal_id s2 → s1 = s2.
Proof. destruct s1, s2; cbn; intros Heq; by inversion Heq. Qed.

Lemma metadata_json_injective (m1 m2 : MatchDetailMetadata) :
  JDict (MatchDetailMetadata_to_json m1)
  = JDict (MatchDetailMetadata_to_json m2) →
  m1 = m2.
Proof.
  destruct m1 as [d1 t1 o1], m2 as [d2 t2 o2].
  unfold MatchDetailMetadata_to_json. cbn [dataset tags opinion].
  intros Heq. injection Heq as -> Htags ->.
  apply map_injective in Htags as ->; [done|].
  intros x y Hxy. by inversion Hxy.
Qed.

Lemma JDict_injective d1 d2 : JDict d1 = JDict d2 → d1 = d2.
Proof. intros Heq. by inversion Heq. Qed.

Lemma match_detail_asdict_injective (detail1 detail2 : MatchDetail) :
  MatchDetail_asdict detail1 = MatchDetail_asdict detail2 →
  detail1 = detail2.
Proof.
  destruct detail1 as [c1 h1 i1 sh1 ss1 st1 u1 m1],
           detail2 as [c2 h2 i2 sh2 ss2 st2 u2 m2].
  unfold MatchDetail_asdict.
  cbn [content_id content_hash signal_id signal_hash signal_source
       signal_type updated_at metadata].
  intros Heq. injection Heq as -> -> Hid -> -> -> -> Hmeta.
  apply json_of_signal_id_injective in Hid as ->.
  apply map_injective in Hmeta as ->; [done|].
  apply metadata_json_injective.
Qed.

(** The [update] of [MatchDetail.to_json] changes nothing: [asdict] has
    already turned the metadata entries into the dictionaries their own
    [to_json] gives, and the key keeps its place, last of eight. *)
Theorem match_detail_to_json_is_asdict (self : MatchDetail) :
  MatchDetail_to_json self = MatchDetail_asdict self
  ∧ map fst (MatchDetail_to_json self)
    = [ "content_id"; "content_hash"; "signal_id"; "signal_hash";
        "signal_source"; "signal_type"; "updated_at"; "metadata" ].
Proof. split; reflexivity. Qed.

(** The JSON view of a match detail loses nothing: two details have the
    same JSON exactly when they are the same detail; in particular a
    string signal id and an integer one are never confused. *)
Theorem match_detail_to_json_injective (detail1 detail2 : MatchDetail) :
  MatchDetail_to_json detail1 = MatchDetail_to_json detail2
  ↔ detail1 = detail2.
Proof.
  split; [|by intros ->].
  intros Heq. apply match_detail_asdict_injective.
  change (MatchDetail_to_json detail1 = MatchDetail_to_json detail2).
  exact Heq.
Qed.

(** The JSON view of a details response is as faithful: equal JSON means
    the same details in the same order. *)
Theorem match_details_response_to_json_injective
    (response1 response2 : MatchDetailsResponse) :
  MatchDetailsResponse_to_json response1
  = MatchDetailsResponse_to_json response2
  ↔ response1 = response2.
Proof.
  split; [|by intros ->].
  destruct response1 as [details1], response2 as [details2].
  unfold MatchDetailsResponse_to_json. cbn [match_details_of].
  intros Heq. injection Heq as Hdetails.
  apply map_injective in Hdetails as ->; [done|].
  intros d1 d2 Hd. apply JDict_injective in Hd.
  by apply match_detail_asdict_injective.
Qed.

Lemma match_summary_json_injective (summary1 summary2 : MatchSummary) :
  JDict (MatchSummary_to_json summary1) = JDict (MatchSummary_to_json summary2) →
  summary1 = summary2.
Proof.
  destruct summary1 as [c1 i1 s1 u1 r1], summary2 as [c2 i2 s2 u2 r2].
  unfold MatchSummary_to_json.
  cbn [sum_content_id sum_signal_id sum_signal_source sum_updated_at
       reactions].
  intros Heq. injection Heq as -> Hid -> -> ->.
  by apply json_of_signal_id_injective in Hid as ->.
Qed.

(** The JSON view of a listing response loses nothing either: equal JSON
    means the same summaries in the same order, with string and integer
    signal ids kept apart. *)
Theorem match_summaries_response_to_json_injective
    (response1 response2 : MatchSummariesResponse) :
  MatchSummariesResponse_to_json response1
  = MatchSummariesResponse_to_json response2
  ↔ response1 = response2.
Proof.
  split; [|by intros ->].
  destruct response1 as [summaries1], response2 as [summaries2].
  unfold MatchSummariesResponse_to_json. cbn [match_summaries].
  intros Heq. injection Heq as Hsummaries.
  apply map_injective in Hsummaries as ->; [done|].
  apply match_summary_json_injective.
Qed.

(** ** The listing endpoint *)

(** A content query takes precedence: with a non-empty [content_q] the
    listing asks the store for that content key alone, exactly as it was
    given, and [signal_q] and [signal_source] make no difference to the
    answer. *)
Theorem matches_content_query_takes_precedence
    (M : Models) (L : ListingQueries M) (table : Table M)
    (image_folder_key : string) (request : RequestQuery) :
  str_truthy (content_q request) = true →
  snd (matches M L table image_folder_key request)
  = [ContentIdListing (content_q request)]
  ∧ matches M L table image_folder_key request
    = matches M L table image_folder_key
        (mkRequestQuery "" "" (content_q request)).
Proof.
  intros Hcontent. unfold matches. cbn [content_q].
  rewrite Hcontent. by split.
Qed.

Lemma matches_content_query_takes_precedence_witness :
  snd (matches one_match one_match_listing tt "images/"
         (mkRequestQuery "42" "te" "images/cat.jpg"))
  = [ContentIdListing "images/cat.jpg"]
  ∧ matches one_match one_match_listing tt "images/"
      (mkRequestQuery "42" "te" "images/cat.jpg")
    = matches one_match one_match_listing tt "images/"
        (mkRequestQuery "" "" "images/cat.jpg").
Proof.
  apply (matches_content_query_takes_precedence one_match one_match_listing
           tt "images/" (mkRequestQuery "42" "te" "images/cat.jpg")).
  reflexivity.
Defined.

End MatchesExtras.
